(** * FoxImage: a React component that fetches a random fox picture

    Shallow embedding of the [FoxImage] component of [src/unnamed/part_001]
    (the final version, with the loading flag and the "Get New Fox" button;
    the earlier version without the button is [Version2]) and the properties
    of its state, its fetch operation and its render output.

    The component owns two [useState] cells.  Everything it does to the
    outside world (state setters, the [fetch] call, [console.log]) is
    recorded, in program order, in a history, so that statements about the
    order and the number of side effects can be made. *)

From stdpp Require Import gmap strings list.

Local Open Scope string_scope.
Local Open Scope list_scope.

(** ** JavaScript values *)

(** What [JSON.parse] can produce, plus [undefined].  An object is a finite
    map from property names to values: after parsing, a key occurs once. *)
#[warnings="-register-all"]
Inductive jsval : Type :=
| JUndefined
| JNull
| JBool (b : bool)
| JNum (n : Z)
| JStr (s : string)
| JArr (l : list jsval)
| JObj (m : gmap string jsval).

(** Thrown values: the constructor name and the message. *)
Record js_error : Type := JsError { err_name : string; err_message : string }.

(** Result of evaluating code that may throw. *)
Inductive completion (A : Type) : Type :=
| Normal (a : A)
| Throw (e : js_error).
Arguments Normal {A} a.
Arguments Throw {A} e.

(** ** The network *)

(** The body of a response, seen through [response.json()]: either text that
    is not JSON, or the parsed value. *)
Inductive body_text : Type :=
| Malformed
| Json (v : jsval).

Record response : Type := Response { status : nat; body : body_text }.

(** [response.ok]: the status is in the range 200-299. *)
Definition ok (r : response) : bool :=
  (200 <=? status r)%nat && (status r <=? 299)%nat.

(** How the promise returned by [fetch] settles. *)
Inductive outcome : Type :=
| Rejected (e : js_error)
| Fulfilled (r : response).

(** [response.json()] rejects with a SyntaxError on a malformed body. *)
Definition response_json (r : response) : completion jsval :=
  match body r with
  | Malformed => Throw (JsError "SyntaxError" "Unexpected token in JSON")
  | Json v => Normal v
  end.

(** The expression [data.image]: a property read throws on [null] and
    [undefined]; an object yields the property or [undefined]; no other
    value has a property of that name. *)
Definition data_image (data : jsval) : completion jsval :=
  match data with
  | JUndefined | JNull =>
      Throw (JsError "TypeError" "Cannot read properties of null (reading 'image')")
  | JObj m => Normal (default JUndefined (m !! "image"))
  | _ => Normal JUndefined
  end.

(** ** Component state and side effects *)

Inductive action : Type :=
| ASetImage (v : jsval)
| ASetLoading (b : bool)
| AFetch (url : string)
| AConsoleLog (e : js_error)
| AEffect.

Record component : Type := Component {
  image : jsval;                      (* const [image, setImage] = useState(foxLogo) *)
  loading : bool;                     (* const [loading, setLoading] = useState(true) *)
  effect_deps : option (list jsval);  (* dependencies kept by useEffect; None before mount *)
  pending : gset nat;                 (* fetch promises not yet settled *)
  history : list action               (* side effects so far, oldest first *)
}.

(** Number of [fetch] calls in a history; the next request gets it as its
    number. *)
Fixpoint count_fetch (h : list action) : nat :=
  match h with
  | [] => 0
  | AFetch _ :: h' => S (count_fetch h')
  | _ :: h' => count_fetch h'
  end.

Fixpoint count_effect (h : list action) : nat :=
  match h with
  | [] => 0
  | AEffect :: h' => S (count_effect h')
  | _ :: h' => count_effect h'
  end.

Fixpoint console_of (h : list action) : list js_error :=
  match h with
  | [] => []
  | AConsoleLog e :: h' => e :: console_of h'
  | _ :: h' => console_of h'
  end.

Definition calls (s : component) : nat := count_fetch (history s).
Definition effect_runs (s : component) : nat := count_effect (history s).
Definition console (s : component) : list js_error := console_of (history s).

(** *** A state monad for the component's code *)

Definition M (A : Type) : Type := component → A * component.

Definition ret {A} (a : A) : M A := λ s, (a, s).
Definition bind {A B} (c : M A) (k : A → M B) : M B :=
  λ s, let '(a, s') := c s in k a s'.
Definition exec {A} (c : M A) (s : component) : component := snd (c s).

Notation "'do' x <- c ; k" := (bind c (λ x, k))
  (at level 10, x name, c at level 100, k at level 200).
Notation "c ;; k" := (bind c (λ _, k))
  (at level 100, k at level 200, right associativity).

Definition setImage (v : jsval) : M unit := λ s,
  (tt, {| image := v; loading := loading s; effect_deps := effect_deps s;
          pending := pending s; history := history s ++ [ASetImage v] |}).

Definition setLoading (b : bool) : M unit := λ s,
  (tt, {| image := image s; loading := b; effect_deps := effect_deps s;
          pending := pending s; history := history s ++ [ASetLoading b] |}).

(** [fetch(url)] starts a request and hands back its promise, here the
    request number. *)
Definition fetch (url : string) : M nat := λ s,
  (calls s, {| image := image s; loading := loading s; effect_deps := effect_deps s;
               pending := pending s ∪ {[ calls s ]};
               history := history s ++ [AFetch url] |}).

Definition console_log (e : js_error) : M unit := λ s,
  (tt, {| image := image s; loading := loading s; effect_deps := effect_deps s;
          pending := pending s; history := history s ++ [AConsoleLog e] |}).

(** ** The component *)

Definition API_URL : string := "https://randomfox.ca/floof/".

(** [function fetchNewImage()]: the synchronous part. *)
Definition fetchNewImage : M unit :=
  setLoading true ;;
  do _p <- fetch API_URL ;
  ret tt.

(** First [.then]: [response => { if (!response.ok) throw ...; return response.json() }]. *)
Definition on_response (r : response) : completion jsval :=
  if negb (ok r) then Throw (JsError "Error" "Failed to fetch image")
  else response_json r.

(** Second [.then]: [data => { setImage(data.image); setLoading(false) }]. *)
Definition on_data (data : jsval) : M (completion unit) :=
  match data_image data with
  | Throw e => ret (Throw e)
  | Normal v => setImage v ;; setLoading false ;; ret (Normal tt)
  end.

(** [.catch(error => console.log(error))]. *)
Definition on_error (e : js_error) : M unit := console_log e.

(** The promise chain [fetch(..).then(..).then(..).catch(..)], run when the
    fetch promise settles: a rejection or a throw in either [then] skips to
    the [catch]. *)
Definition settle (o : outcome) : M unit :=
  match o with
  | Rejected e => on_error e
  | Fulfilled r =>
      match on_response r with
      | Throw e => on_error e
      | Normal data =>
          do c <- on_data data ;
          match c with
          | Throw e => on_error e
          | Normal _ => ret tt
          end
      end
  end.

(** *** The mount effect *)

(** [Object.is] on dependency values.  Primitives compare by value; arrays
    and objects compare by reference, which values here do not carry, so two
    of them count as different (the effect then runs again). *)
Definition Object_is (x y : jsval) : bool :=
  match x, y with
  | JUndefined, JUndefined => true
  | JNull, JNull => true
  | JBool a, JBool b => bool_decide (a = b)
  | JNum a, JNum b => bool_decide (a = b)
  | JStr a, JStr b => bool_decide (a = b)
  | _, _ => false
  end.

(** React's comparison of two dependency arrays. *)
Fixpoint areHookInputsEqual (next prev : list jsval) : bool :=
  match next, prev with
  | [], [] => true
  | x :: next', y :: prev' => Object_is x y && areHookInputsEqual next' prev'
  | _, _ => false
  end.

Definition set_effect_deps (deps : list jsval) : M unit := λ s,
  (tt, {| image := image s; loading := loading s; effect_deps := Some deps;
          pending := pending s; history := history s |}).

Definition run_effect (effect : M unit) : M unit := λ s,
  effect {| image := image s; loading := loading s; effect_deps := effect_deps s;
            pending := pending s; history := history s ++ [AEffect] |}.

(** [useEffect(effect, deps)], as seen when a render is committed: the
    effect runs on mount, and afterwards only when a dependency changed. *)
Definition useEffect (effect : M unit) (deps : list jsval) : M unit := λ s,
  match effect_deps s with
  | None => (set_effect_deps deps ;; run_effect effect) s
  | Some prev =>
      if areHookInputsEqual deps prev then set_effect_deps deps s
      else (set_effect_deps deps ;; run_effect effect) s
  end.

(** The hooks of [FoxImage] that act at commit: [useEffect(fetchNewImage, [])]. *)
Definition FoxImage_commit : M unit := useEffect fetchNewImage [].

(** *** The rendered tree *)

Inductive handler : Type := HFetchNewImage.

Inductive prop : Type :=
| PValue (v : jsval)
| PHandler (h : handler).

#[warnings="-register-all"]
Inductive node : Type :=
| Text (s : string)
| Elem (tag : string) (props : list (string * prop)) (children : list node).

(** The JSX returned by [FoxImage]. *)
Definition FoxImage (s : component) : node :=
  Elem "div" []
    [ Elem "p" [] [Text "Learn more about us!"];
      (if loading s then Text "" else Elem "p" [] [Text " Loading..."]);
      Elem "img" [("src", PValue (image s)); ("alt", PValue (JStr "A Random Fox"))] [];
      Elem "button" [("onClick", PHandler HFetchNewImage)] [Text "Get New Fox"] ].

(** Does a tree display the given text somewhere? *)
Fixpoint displays (t : string) (n : node) : bool :=
  match n with
  | Text s => bool_decide (s = t)
  | Elem _ _ children => existsb (displays t) children
  end.

Definition loading_indicator_shown (n : node) : bool := displays " Loading..." n.

(** The [onClick] handlers found in a tree. *)
Fixpoint click_handlers (n : node) : list handler :=
  match n with
  | Text _ => []
  | Elem _ props children =>
      omap (λ p, match p with ("onClick", PHandler h) => Some h | _ => None end) props
      ++ flat_map click_handlers children
  end.

Definition run_handler (h : handler) : M unit :=
  match h with HFetchNewImage => fetchNewImage end.

(** ** The component as a transition system *)

Section Machine.

(** [import foxLogo from '../assets/fox-logo.png']: the URL of the bundled
    picture, fixed by the build. *)
Variable foxLogo : string.

(** The state made by the two [useState] calls of the first render, before
    any effect has run. *)
Definition init : component :=
  {| image := JStr foxLogo; loading := true; effect_deps := None;
     pending := ∅; history := [] |}.

Inductive event : Type :=
| Render                          (* React renders and commits the component *)
| Click                           (* the user presses "Get New Fox" *)
| Settle (id : nat) (o : outcome) (* the fetch promise of request [id] settles *).

Definition forget (id : nat) (s : component) : component :=
  {| image := image s; loading := loading s; effect_deps := effect_deps s;
     pending := pending s ∖ {[ id ]}; history := history s |}.

(** One event.  A button can be pressed once it is on the page; a promise
    settles once, and only if its request was issued. *)
Definition step (e : event) (s : component) : option component :=
  match e with
  | Render => Some (exec FoxImage_commit s)
  | Click =>
      match effect_deps s, click_handlers (FoxImage s) with
      | Some _, [h] => Some (exec (run_handler h) s)
      | _, _ => None
      end
  | Settle id o =>
      if bool_decide (id ∈ pending s) then Some (exec (settle o) (forget id s))
      else None
  end.

Fixpoint run (tr : list event) (s : component) : option component :=
  match tr with
  | [] => Some s
  | e :: tr' =>
      match step e s with
      | Some s' => run tr' s'
      | None => None
      end
  end.

End Machine.

(** ** Reading the promise chain *)

(** What reaches the end of the chain: the value handed to [setImage], or the
    error handed to the [catch]. *)
Definition chain (o : outcome) : completion jsval :=
  match o with
  | Rejected e => Throw e
  | Fulfilled r =>
      match on_response r with
      | Throw e => Throw e
      | Normal data => data_image data
      end
  end.

(** A response with a success status whose JSON body is an object with
    [image = X]. *)
Definition successful_with (X : jsval) (o : outcome) : Prop :=
  ∃ r m, o = Fulfilled r ∧ ok r = true ∧ body r = Json (JObj m) ∧ m !! "image" = Some X.

(** The three kinds of failure: the request did not complete, the status is
    not a success status, the body is not JSON. *)
Inductive failure : outcome → Prop :=
| NetworkFailure e : failure (Rejected e)
| BadStatus r : ok r = false → failure (Fulfilled r)
| ParseFailure r : ok r = true → body r = Malformed → failure (Fulfilled r).

(** Events that write nothing to the image: everything but a promise that
    settles on the success path. *)
Definition keeps_image (e : event) : bool :=
  match e with
  | Settle _ o => match chain o with Throw _ => true | Normal _ => false end
  | _ => true
  end.

Definition is_settle (e : event) : bool :=
  match e with Settle _ _ => true | _ => false end.

Definition is_render (e : event) : bool :=
  match e with Render => true | _ => false end.

Fixpoint count_clicks (tr : list event) : nat :=
  match tr with
  | [] => 0
  | Click :: tr' => S (count_clicks tr')
  | _ :: tr' => count_clicks tr'
  end.

(** [n] rounds of: press the button, then the new request (numbered from
    [id] on) settles with [o]. *)
Fixpoint cycles (o : outcome) (id n : nat) : list event :=
  match n with
  | 0 => []
  | S n' => Click :: Settle id o :: cycles o (S id) n'
  end.

(** An event of a run in which every response is successful with
    [image = X]. *)
Definition settles_with (X : jsval) (e : event) : Prop :=
  match e with
  | Settle _ o => successful_with X o
  | _ => True
  end.

(** Sample responses. *)
Definition fox_a : outcome :=
  Fulfilled (Response 200 (Json (JObj {[ "image" := JStr "https://x/a.png" ]}))).
Definition http_500 : outcome := Fulfilled (Response 500 Malformed).
Definition no_image : outcome :=
  Fulfilled (Response 200 (Json (JObj {[ "link" := JStr "https://x/" ]}))).

(** Before the first commit no dependencies are remembered; afterwards they
    are the empty array. *)
Definition deps_ok (s : component) : Prop :=
  effect_deps s = None ∨ effect_deps s = Some [].

(** Effect runs still to come from a state along a run: one, if the
    component is not mounted yet and the run has a render. *)
Definition mounts (s : component) (tr : list event) : nat :=
  match effect_deps s with
  | None => if existsb is_render tr then 1 else 0
  | Some _ => 0
  end.

(** A mounted component whose mount request is still in flight, used as the
    concrete input of the examples below. *)
Definition mounted : component :=
  exec FoxImage_commit (init "/src/assets/fox-logo.png").

(** ** Reading a run *)

(** The value an event writes to the image state, if any. *)
Definition delivered (e : event) : option jsval :=
  match e with
  | Settle _ o => match chain o with Normal v => Some v | Throw _ => None end
  | _ => None
  end.

(** The error an event sends to the console, if any. *)
Definition logged (e : event) : option js_error :=
  match e with
  | Settle _ o => match chain o with Normal _ => None | Throw err => Some err end
  | _ => None
  end.

(** The last value written to the image state along a run. *)
Fixpoint last_delivered (tr : list event) : option jsval :=
  match tr with
  | [] => None
  | e :: tr' =>
      match last_delivered tr' with
      | Some v => Some v
      | None => delivered e
      end
  end.

(** What an event of a mounted component writes to the loading flag: a
    press sets it, a successful response clears it. *)
Definition loading_write (e : event) : option bool :=
  match e with
  | Render => None
  | Click => Some true
  | Settle _ o => match chain o with Normal _ => Some false | Throw _ => None end
  end.

Fixpoint last_loading (tr : list event) : option bool :=
  match tr with
  | [] => None
  | e :: tr' =>
      match last_loading tr' with
      | Some b => Some b
      | None => loading_write e
      end
  end.

(** Either mounted, or untouched since [useState]: nothing in flight and the
    loading flag still [true]. *)
Definition settled_in (s : component) : Prop :=
  effect_deps s = Some []
  ∨ (effect_deps s = None ∧ pending s = ∅ ∧ loading s = true).

Definition fetches_api (a : action) : Prop :=
  match a with
  | AFetch url => url = API_URL
  | _ => True
  end.

(** ** The component before the button was added *)

(** The first [FoxImage] of [src/unnamed/part_001] (lines 7-36): the fetch
    sits in the effect itself, which does not call [setLoading(true)], and
    the tree has no button. *)
Module Version2.

(** The effect [() => { fetch(API_URL).then(..).then(..).catch(..) }]: its
    synchronous part.  The chain is the one of [settle]. *)
Definition mount_effect : M unit :=
  do _p <- fetch API_URL ;
  ret tt.

Definition FoxImage_commit : M unit := useEffect mount_effect [].

Definition FoxImage (s : component) : node :=
  Elem "div" []
    [ Elem "p" [] [Text "Learn more about us!"];
      (if loading s then Text "" else Elem "p" [] [Text " Loading..."]);
      Elem "img" [("src", PValue (image s)); ("alt", PValue (JStr "A Random Fox"))] [] ].

Definition step (e : event) (s : component) : option component :=
  match e with
  | Render => Some (exec FoxImage_commit s)
  | Click =>
      match effect_deps s, click_handlers (FoxImage s) with
      | Some _, [h] => Some (exec (run_handler h) s)
      | _, _ => None
      end
  | Settle id o =>
      if bool_decide (id ∈ pending s) then Some (exec (settle o) (forget id s))
      else None
  end.

Fixpoint run (tr : list event) (s : component) : option component :=
  match tr with
  | [] => Some s
  | e :: tr' =>
      match step e s with
      | Some s' => run tr' s'
      | None => None
      end
  end.

End Version2.

(** What the two versions of the component have in common in a pair of
    states. *)
Definition same_view (a b : component) : Prop :=
  image a = image b ∧ loading a = loading b ∧ pending a = pending b
  ∧ effect_deps a = effect_deps b ∧ calls a = calls b ∧ console a = console b.

(** ** Basic facts *)

Lemma count_fetch_app h1 h2 : count_fetch (h1 ++ h2) = count_fetch h1 + count_fetch h2.
Proof.
  induction h1 as [|a h1 IH]; [reflexivity|].
  destruct a; simpl; rewrite IH; reflexivity.
Qed.

Lemma count_effect_app h1 h2 : count_effect (h1 ++ h2) = count_effect h1 + count_effect h2.
Proof.
  induction h1 as [|a h1 IH]; [reflexivity|].
  destruct a; simpl; rewrite IH; reflexivity.
Qed.

Lemma console_of_app h1 h2 : console_of (h1 ++ h2) = console_of h1 ++ console_of h2.
Proof.
  induction h1 as [|a h1 IH]; [reflexivity|].
  destruct a; simpl; rewrite IH; reflexivity.
Qed.

(** The state left by [fetchNewImage]. *)
Lemma fetchNewImage_exec s :
  exec fetchNewImage s =
  {| image := image s; loading := true; effect_deps := effect_deps s;
     pending := pending s ∪ {[ calls s ]};
     history := history s ++ [ASetLoading true; AFetch API_URL] |}.
Proof.
  unfold exec, fetchNewImage, bind, setLoading, fetch, ret, calls; simpl.
  rewrite count_fetch_app, <- app_assoc; simpl.
  rewrite Nat.add_0_r. reflexivity.
Qed.

Lemma fetchNewImage_calls s : calls (exec fetchNewImage s) = S (calls s).
Proof.
  rewrite fetchNewImage_exec. unfold calls. simpl.
  rewrite count_fetch_app. simpl. lia.
Qed.

(** The state left by the promise chain, by what reaches its end. *)
Lemma settle_exec o s :
  exec (settle o) s =
  match chain o with
  | Normal v =>
      {| image := v; loading := false; effect_deps := effect_deps s;
         pending := pending s; history := history s ++ [ASetImage v; ASetLoading false] |}
  | Throw e =>
      {| image := image s; loading := loading s; effect_deps := effect_deps s;
         pending := pending s; history := history s ++ [AConsoleLog e] |}
  end.
Proof.
  destruct o as [e|r]; simpl; [reflexivity|].
  destruct (on_response r) as [data|e]; [|reflexivity].
  unfold exec, bind, on_data.
  destruct (data_image data) as [v|e]; simpl; [|reflexivity].
  rewrite <- app_assoc. reflexivity.
Qed.

Lemma successful_chain X o : successful_with X o → chain o = Normal X.
Proof.
  intros (r & m & -> & Hok & Hbody & Hm).
  unfold chain, on_response, response_json.
  rewrite Hok, Hbody; simpl. rewrite Hm. reflexivity.
Qed.

Lemma failure_chain o : failure o → ∃ e, chain o = Throw e.
Proof.
  intros [e|r Hok|r Hok Hbody]; simpl.
  - eauto.
  - unfold on_response. rewrite Hok. simpl. eauto.
  - unfold on_response, response_json. rewrite Hok, Hbody. simpl. eauto.
Qed.

Lemma step_settle id o s :
  id ∈ pending s → step (Settle id o) s = Some (exec (settle o) (forget id s)).
Proof. intros Hin. simpl. rewrite bool_decide_eq_true_2 by exact Hin. reflexivity. Qed.

Lemma step_click s :
  is_Some (effect_deps s) → step Click s = Some (exec fetchNewImage s).
Proof.
  intros [d Hd]. unfold step, FoxImage. rewrite Hd.
  destruct (loading s); reflexivity.
Qed.

Lemma step_click_inv s s' : step Click s = Some s' → s' = exec fetchNewImage s.
Proof.
  unfold step, FoxImage.
  destruct (effect_deps s); [|discriminate].
  destruct (loading s); simpl; intros H; inversion H; reflexivity.
Qed.

(** A commit changes nothing but the remembered dependencies when these
    were the empty array already; otherwise (on mount) it runs the effect. *)
Lemma commit_exec s :
  exec FoxImage_commit s =
  match effect_deps s with
  | Some [] =>
      {| image := image s; loading := loading s; effect_deps := Some [];
         pending := pending s; history := history s |}
  | _ =>
      {| image := image s; loading := true; effect_deps := Some [];
         pending := pending s ∪ {[ calls s ]};
         history := history s ++ [AEffect; ASetLoading true; AFetch API_URL] |}
  end.
Proof.
  assert (Hrun : (set_effect_deps [] ;; run_effect fetchNewImage) s =
    (tt, {| image := image s; loading := true; effect_deps := Some [];
            pending := pending s ∪ {[ calls s ]};
            history := history s ++ [AEffect; ASetLoading true; AFetch API_URL] |})).
  { unfold bind, set_effect_deps, run_effect; simpl.
    pose proof (fetchNewImage_exec
      {| image := image s; loading := loading s; effect_deps := Some [];
         pending := pending s; history := history s ++ [AEffect] |}) as H.
    unfold exec in H.
    destruct (fetchNewImage _) as [[] s'] eqn:Hs'. simpl in H. subst s'.
    unfold calls; simpl.
    rewrite count_fetch_app, <- app_assoc; simpl. rewrite Nat.add_0_r. reflexivity. }
  unfold exec, FoxImage_commit, useEffect.
  destruct (effect_deps s) as [[|j prev]|] eqn:Hd; simpl areHookInputsEqual; cbv iota.
  - reflexivity.
  - rewrite Hrun. reflexivity.
  - rewrite Hrun. reflexivity.
Qed.

(** ** Events that leave the image alone *)

Lemma keeps_image_step e s s' :
  keeps_image e = true → step e s = Some s' →
  image s' = image s ∧ (loading s = true → loading s' = true).
Proof.
  destruct e as [| |id o]; intros Hk Hs.
  - simpl in Hs. inversion Hs; subst s'. rewrite commit_exec.
    destruct (effect_deps s) as [[|j prev]|]; simpl; auto.
  - apply step_click_inv in Hs. subst s'. rewrite fetchNewImage_exec. simpl. auto.
  - simpl in Hs. destruct (bool_decide (id ∈ pending s)); [|discriminate].
    inversion Hs; subst s'. rewrite settle_exec.
    simpl in Hk. destruct (chain o); [discriminate|]. simpl. auto.
Qed.

Lemma keeps_image_run tr : ∀ s s',
  forallb keeps_image tr = true → run tr s = Some s' →
  image s' = image s ∧ (loading s = true → loading s' = true).
Proof.
  induction tr as [|e tr IH]; intros s s' Hk Hr.
  - inversion Hr. auto.
  - simpl in Hk. apply andb_prop in Hk as [He Htr].
    simpl in Hr. destruct (step e s) as [s1|] eqn:Hs; [|discriminate].
    destruct (keeps_image_step _ _ _ He Hs) as [Hi Hl].
    destruct (IH _ _ Htr Hr) as [Hi' Hl'].
    split; [congruence|auto].
Qed.

Lemma no_settle_keeps_image tr :
  forallb (λ e, negb (is_settle e)) tr = true → forallb keeps_image tr = true.
Proof.
  induction tr as [|e tr IH]; [reflexivity|].
  simpl. intros H. apply andb_prop in H as [He Htr].
  rewrite (IH Htr), andb_true_r.
  destruct e; [reflexivity|reflexivity|discriminate].
Qed.

(** ** What a mounted component has done *)

Lemma run_counts tr : ∀ s s',
  deps_ok s → run tr s = Some s' →
  effect_runs s' = effect_runs s + mounts s tr
  ∧ calls s' = calls s + mounts s tr + count_clicks tr.
Proof.
  unfold effect_runs, calls, mounts.
  induction tr as [|e tr IH]; intros s s' Hd Hr.
  - inversion Hr; subst s'. simpl. destruct (effect_deps s); lia.
  - simpl in Hr. destruct (step e s) as [s1|] eqn:Hs; [|discriminate].
    destruct e as [| |id o].
    + simpl in Hs. inversion Hs; subst s1. clear Hs.
      assert (Hd1 : deps_ok (exec FoxImage_commit s)).
      { right. rewrite commit_exec. destruct (effect_deps s) as [[|j prev]|]; reflexivity. }
      destruct (IH _ _ Hd1 Hr) as [He Hc]. rewrite He, Hc. clear IH He Hc Hr.
      rewrite commit_exec.
      destruct Hd as [Hd|Hd]; rewrite Hd; simpl;
        rewrite ?count_effect_app, ?count_fetch_app; simpl; lia.
    + pose proof (step_click_inv _ _ Hs) as ->.
      assert (Hsome : effect_deps s = Some []).
      { destruct Hd as [Hd|Hd]; [|exact Hd].
        unfold step in Hs. rewrite Hd in Hs. discriminate. }
      assert (Hd1 : deps_ok (exec fetchNewImage s)).
      { right. rewrite fetchNewImage_exec. exact Hsome. }
      destruct (IH _ _ Hd1 Hr) as [He Hc]. rewrite He, Hc. clear IH He Hc Hr.
      rewrite fetchNewImage_exec. simpl. rewrite Hsome.
      rewrite ?count_effect_app, ?count_fetch_app; simpl; lia.
    + simpl in Hs. destruct (bool_decide (id ∈ pending s)); [|discriminate].
      inversion Hs; subst s1. clear Hs.
      assert (Hd1 : deps_ok (exec (settle o) (forget id s))).
      { unfold deps_ok. rewrite settle_exec. destruct (chain o); exact Hd. }
      destruct (IH _ _ Hd1 Hr) as [He Hc]. rewrite He, Hc. clear IH He Hc Hr.
      rewrite settle_exec.
      destruct (chain o); simpl;
        rewrite ?count_effect_app, ?count_fetch_app; simpl;
        destruct (effect_deps s); lia.
Qed.

(** One round of pressing the button and receiving a successful response. *)
Lemma cycle_run X o s :
  successful_with X o → is_Some (effect_deps s) →
  ∃ s', run [Click; Settle (calls s) o] s = Some s'
    ∧ image s' = X ∧ loading s' = false
    ∧ calls s' = S (calls s) ∧ effect_deps s' = effect_deps s.
Proof.
  intros Hok Hm. apply successful_chain in Hok.
  eexists. split.
  - cbn [run]. rewrite (step_click _ Hm).
    rewrite step_settle; [reflexivity|].
    rewrite fetchNewImage_exec. simpl. set_solver.
  - rewrite fetchNewImage_exec, settle_exec, Hok. unfold calls. simpl.
    rewrite !count_fetch_app. simpl. repeat split; lia.
Qed.

Lemma run_app tr1 tr2 s :
  run (tr1 ++ tr2) s = match run tr1 s with Some s1 => run tr2 s1 | None => None end.
Proof.
  revert s. induction tr1 as [|e tr1 IH]; intros s; [reflexivity|].
  simpl. destruct (step e s); [apply IH|reflexivity].
Qed.

Lemma cycles_run X o n : ∀ s,
  successful_with X o → is_Some (effect_deps s) →
  ∃ s', run (cycles o (calls s) (S n)) s = Some s'
    ∧ image s' = X ∧ loading s' = false.
Proof.
  induction n as [|n IH]; intros s Hok Hm.
  - destruct (cycle_run X o s Hok Hm) as (s' & Hr & Hi & Hl & _).
    exists s'. auto.
  - destruct (cycle_run X o s Hok Hm) as (s1 & Hr & _ & _ & Hc & Hd).
    assert (Hm1 : is_Some (effect_deps s1)) by (rewrite Hd; exact Hm).
    destruct (IH s1 Hok Hm1) as (s' & Hr' & Hi & Hl).
    exists s'. split; [|auto].
    change (cycles o (calls s) (S (S n)))
      with ([Click; Settle (calls s) o] ++ cycles o (S (calls s)) (S n)).
    rewrite run_app, Hr, <- Hc. exact Hr'.
Qed.

Lemma settles_with_run X tr : Forall (settles_with X) tr → ∀ s s',
  image s = X → run tr s = Some s' → image s' = X.
Proof.
  induction 1 as [|e tr He _ IH]; intros s s' Hi Hr.
  - inversion Hr; subst s'. exact Hi.
  - simpl in Hr. destruct (step e s) as [s1|] eqn:Hs; [|discriminate].
    apply (IH s1 s'); [|exact Hr].
    destruct e as [| |id o].
    + destruct (keeps_image_step Render s s1 eq_refl Hs) as [H1 _]. congruence.
    + destruct (keeps_image_step Click s s1 eq_refl Hs) as [H1 _]. congruence.
    + simpl in He. apply successful_chain in He.
      simpl in Hs. destruct (bool_decide (id ∈ pending s)); [|discriminate].
      inversion Hs; subst s1. rewrite settle_exec, He. reflexivity.
Qed.

(** ** Properties of the fetch operation *)

(** C1. Whenever the promise of an issued request settles with a success
    status and a JSON object whose [image] is [X], the chain runs to its end:
    afterwards the image state is [X] and the loading state is [false]. *)
Theorem settle_success_sets_image (s : component) (id : nat) (o : outcome) (X : jsval) :
  successful_with X o →
  id ∈ pending s →
  ∃ s', step (Settle id o) s = Some s' ∧ image s' = X ∧ loading s' = false.
Proof.
  intros Hok Hin. apply successful_chain in Hok.
  eexists. split; [apply step_settle, Hin|].
  rewrite settle_exec, Hok. simpl. auto.
Qed.

Lemma settle_success_sets_image_witness :
  successful_with (JStr "https://x/a.png") fox_a ∧ 0 ∈ pending mounted ∧
  ∃ s', step (Settle 0 fox_a) mounted = Some s'
    ∧ image s' = JStr "https://x/a.png" ∧ loading s' = false.
Proof.
  assert (H1 : successful_with (JStr "https://x/a.png") fox_a).
  { eexists _, _. repeat split; reflexivity. }
  assert (H2 : 0 ∈ pending mounted).
  { apply (bool_decide_unpack _). vm_compute. exact I. }
  split; [exact H1|]. split; [exact H2|].
  exact (settle_success_sets_image mounted 0 fox_a _ H1 H2).
Defined.

(** C2, as stated, fails when requests overlap: the mount request (number 0)
    and a button request (number 1) are both in flight, request 0 brings a
    picture and request 1 then fails with status 500.  After the failure the
    image is not the one shown when request 1 was started, and the loading
    flag is [false]. *)
Lemma failed_fetch_after_overlap :
  ∃ s1 s3,
    step Click mounted = Some s1
    ∧ calls mounted = 1
    ∧ run [Settle 0 fox_a; Settle 1 http_500] s1 = Some s3
    ∧ chain http_500 = Throw (JsError "Error" "Failed to fetch image")
    ∧ image mounted = JStr "/src/assets/fox-logo.png"
    ∧ image s3 = JStr "https://x/a.png"
    ∧ loading s3 = false
    ∧ ¬ (image s3 = image mounted ∧ loading s3 = true).
Proof.
  eexists _, _. split; [reflexivity|].
  repeat split; try (vm_compute; reflexivity).
  vm_compute. intros [H _]. discriminate H.
Qed.

(** C2, amended. An invocation that ends in an error (a rejected request, a
    non-success status, a body that is not JSON, or any other throw in the
    chain) does one thing when it ends: it logs the error.  In every state,
    overlapping requests or not, the failing resolution changes neither the
    image nor the loading flag and adds one console entry to the history;
    and if no other request settled successfully since the invocation
    started, the image is the one from before the request and the loading
    flag is [true]. *)
Theorem failed_fetch_only_logs (o : outcome) (e : js_error) :
  chain o = Throw e →
  (∀ s id, id ∈ pending s →
     ∃ s', step (Settle id o) s = Some s'
       ∧ image s' = image s ∧ loading s' = loading s
       ∧ history s' = history s ++ [AConsoleLog e])
  ∧ (∀ s0 mid s2,
       forallb keeps_image mid = true →
       run mid (exec fetchNewImage s0) = Some s2 →
       calls s0 ∈ pending s2 →
       ∃ s3, step (Settle (calls s0) o) s2 = Some s3
         ∧ image s3 = image s2 ∧ loading s3 = loading s2
         ∧ history s3 = history s2 ++ [AConsoleLog e]
         ∧ image s3 = image s0 ∧ loading s3 = true).
Proof.
  intros Hch. split.
  - intros s id Hin.
    eexists. split; [apply step_settle, Hin|].
    rewrite settle_exec, Hch. simpl. auto.
  - intros s0 mid s2 Hk Hr Hin.
    destruct (keeps_image_run _ _ _ Hk Hr) as [Hi Hl].
    rewrite fetchNewImage_exec in Hi, Hl. simpl in Hi, Hl.
    eexists. split; [apply step_settle, Hin|].
    rewrite settle_exec, Hch. simpl. repeat split; auto.
Qed.

Lemma failed_fetch_only_logs_witness :
  (∃ s', step (Settle 1 http_500)
              (exec (settle fox_a) (forget 0 (exec fetchNewImage mounted))) = Some s'
     ∧ image s' = JStr "https://x/a.png" ∧ loading s' = false
     ∧ history s' = history (exec (settle fox_a) (forget 0 (exec fetchNewImage mounted)))
                    ++ [AConsoleLog (JsError "Error" "Failed to fetch image")])
  ∧ (∃ s3, step (Settle 1 http_500) (exec fetchNewImage mounted) = Some s3
       ∧ image s3 = image (exec fetchNewImage mounted)
       ∧ loading s3 = loading (exec fetchNewImage mounted)
       ∧ history s3 = history (exec fetchNewImage mounted)
                      ++ [AConsoleLog (JsError "Error" "Failed to fetch image")]
       ∧ image s3 = image mounted ∧ loading s3 = true).
Proof.
  split.
  - apply (proj1 (failed_fetch_only_logs http_500
                    (JsError "Error" "Failed to fetch image") eq_refl)
             (exec (settle fox_a) (forget 0 (exec fetchNewImage mounted))) 1).
    apply (bool_decide_unpack _). vm_compute. exact I.
  - apply (proj2 (failed_fetch_only_logs http_500
                    (JsError "Error" "Failed to fetch image") eq_refl)
             mounted [] (exec fetchNewImage mounted)).
    + reflexivity.
    + reflexivity.
    + apply (bool_decide_unpack _). vm_compute. exact I.
Defined.

(** C3. The loading flag does not follow the outstanding request on the
    failure path.  Mount, then the mount request fails with status 500: no
    request is outstanding any more, yet the flag is still [true].  On the
    success path the same run ends with the flag [false]. *)
Theorem loading_stuck_after_failed_fetch (foxLogo : string) :
  (∃ s, run [Render; Settle 0 http_500] (init foxLogo) = Some s
        ∧ pending s = ∅ ∧ loading s = true)
  ∧ (∃ s, run [Render; Settle 0 fox_a] (init foxLogo) = Some s
          ∧ pending s = ∅ ∧ loading s = false).
Proof.
  split; eexists; (split; [reflexivity|]); split; vm_compute; reflexivity.
Qed.

(** C7. Every invocation of [fetchNewImage] first sets the loading flag to
    [true] and then, in that state, calls [fetch] once on the fixed URL:
    these are its only two side effects, in this order. *)
Theorem fetchNewImage_sets_loading_then_fetches_once (s : component) :
  exec fetchNewImage s = exec (fetch API_URL) (exec (setLoading true) s)
  ∧ loading (exec (setLoading true) s) = true
  ∧ calls (exec (setLoading true) s) = calls s
  ∧ history (exec fetchNewImage s) = history s ++ [ASetLoading true; AFetch API_URL]
  ∧ calls (exec fetchNewImage s) = S (calls s).
Proof.
  rewrite fetchNewImage_exec. unfold calls, exec, fetch, setLoading, calls. simpl.
  rewrite !count_fetch_app, <- app_assoc. simpl.
  rewrite !Nat.add_0_r.
  repeat split; lia.
Qed.

(** C10. A success status with a JSON object that has no [image] property
    takes the success path: the image state becomes [undefined], the loading
    flag becomes [false], and nothing is logged. *)
Theorem missing_image_field_success_path
    (s : component) (id : nat) (r : response) (m : gmap string jsval) :
  ok r = true →
  body r = Json (JObj m) →
  m !! "image" = None →
  id ∈ pending s →
  ∃ s', step (Settle id (Fulfilled r)) s = Some s'
    ∧ image s' = JUndefined ∧ loading s' = false
    ∧ console s' = console s
    ∧ history s' = history s ++ [ASetImage JUndefined; ASetLoading false].
Proof.
  intros Hok Hbody Hm Hin.
  assert (Hch : chain (Fulfilled r) = Normal JUndefined).
  { unfold chain, on_response, response_json. rewrite Hok, Hbody. simpl.
    rewrite Hm. reflexivity. }
  eexists. split; [apply step_settle, Hin|].
  rewrite settle_exec, Hch. unfold console. simpl.
  rewrite console_of_app. simpl. rewrite app_nil_r. auto.
Qed.

Lemma missing_image_field_success_path_witness :
  ∃ s', step (Settle 0 no_image) mounted = Some s'
    ∧ image s' = JUndefined ∧ loading s' = false
    ∧ console s' = console mounted
    ∧ history s' = history mounted ++ [ASetImage JUndefined; ASetLoading false].
Proof.
  apply (missing_image_field_success_path mounted 0
           (Response 200 (Json (JObj {[ "link" := JStr "https://x/" ]})))
           {[ "link" := JStr "https://x/" ]}).
  - reflexivity.
  - reflexivity.
  - vm_compute. reflexivity.
  - apply (bool_decide_unpack _). vm_compute. exact I.
Defined.

(** ** Mount, render and the manual trigger *)

Lemma renders_run n : ∀ s, ∃ s', run (repeat Render n) s = Some s'.
Proof.
  induction n as [|n IH]; intros s; simpl; [eauto|apply IH].
Qed.

(** C4. The rendered tree depends on the state only through the image and
    the loading flag, and it displays the loading text exactly when the
    loading flag is [false]. *)
Theorem FoxImage_view_of_image_state (s1 s2 : component) :
  image s1 = image s2 →
  loading s1 = loading s2 →
  FoxImage s1 = FoxImage s2
  ∧ loading_indicator_shown (FoxImage s1) = negb (loading s1).
Proof.
  intros Hi Hl. unfold FoxImage. rewrite Hi, Hl.
  split; [reflexivity|].
  destruct (loading s2); reflexivity.
Qed.

Lemma FoxImage_view_of_image_state_witness :
  FoxImage (init "/src/assets/fox-logo.png") = FoxImage mounted
  ∧ loading_indicator_shown (FoxImage (init "/src/assets/fox-logo.png"))
    = negb (loading (init "/src/assets/fox-logo.png")).
Proof.
  apply (FoxImage_view_of_image_state (init "/src/assets/fox-logo.png") mounted).
  - reflexivity.
  - reflexivity.
Defined.

(** C5. The component starts with the bundled picture and the loading flag
    [true], and both stay so through every run in which no promise settles:
    the mount, further renders, presses of the button. *)
Theorem initial_state_until_response (foxLogo : string) (tr : list event) (s : component) :
  forallb (λ e, negb (is_settle e)) tr = true →
  run tr (init foxLogo) = Some s →
  image (init foxLogo) = JStr foxLogo ∧ loading (init foxLogo) = true
  ∧ image s = JStr foxLogo ∧ loading s = true.
Proof.
  intros Hq Hr. apply no_settle_keeps_image in Hq.
  destruct (keeps_image_run _ _ _ Hq Hr) as [Hi Hl].
  simpl in Hi, Hl. auto.
Qed.

Lemma initial_state_until_response_witness :
  image (init "/src/assets/fox-logo.png") = JStr "/src/assets/fox-logo.png"
  ∧ loading (init "/src/assets/fox-logo.png") = true
  ∧ image mounted = JStr "/src/assets/fox-logo.png" ∧ loading mounted = true.
Proof.
  apply (initial_state_until_response "/src/assets/fox-logo.png" [Render] mounted).
  - reflexivity.
  - reflexivity.
Defined.

(** C6. The mount effect calls [fetchNewImage] once, at the first render:
    after any number of renders there has been one effect run and one
    request, and in every run of the component the effect has run once if
    there was a render at all, every other request coming from a press of
    the button. *)
Theorem mount_effect_runs_once
    (foxLogo : string) (n : nat) (tr : list event) (s : component) :
  run tr (init foxLogo) = Some s →
  (∃ s', run (repeat Render (S n)) (init foxLogo) = Some s'
         ∧ effect_runs s' = 1 ∧ calls s' = 1)
  ∧ effect_runs s = (if existsb is_render tr then 1 else 0)
  ∧ calls s = effect_runs s + count_clicks tr.
Proof.
  intros Hr.
  assert (Hd : deps_ok (init foxLogo)) by (left; reflexivity).
  split.
  - destruct (renders_run (S n) (init foxLogo)) as [s' Hs'].
    exists s'. split; [exact Hs'|].
    destruct (run_counts _ _ _ Hd Hs') as [He Hc].
    rewrite He, Hc. clear. unfold mounts, effect_runs, calls. simpl.
    split; [reflexivity|].
    induction n as [|n IH]; [reflexivity|exact IH].
  - destruct (run_counts _ _ _ Hd Hr) as [He Hc].
    rewrite Hc, He. unfold mounts, effect_runs, calls. simpl. split; [reflexivity|lia].
Qed.

Lemma mount_effect_runs_once_witness :
  (∃ s', run (repeat Render 3) (init "/src/assets/fox-logo.png") = Some s'
         ∧ effect_runs s' = 1 ∧ calls s' = 1)
  ∧ effect_runs (exec fetchNewImage mounted) = 1
  ∧ calls (exec fetchNewImage mounted) = 1 + 1.
Proof.
  apply (mount_effect_runs_once "/src/assets/fox-logo.png" 2
           [Render; Render; Click; Render] (exec fetchNewImage mounted)).
  reflexivity.
Defined.

(** C8, as stated, fails when the button is pressed while an earlier request
    is in flight: the mount request (number 0) settles with a picture while
    the request of the press (number 1) is still unresolved, and the image
    state is no longer the one from before the press. *)
Lemma click_image_changes_before_resolution :
  ∃ s1 s2,
    step Click mounted = Some s1
    ∧ calls mounted = 1
    ∧ step (Settle 0 fox_a) s1 = Some s2
    ∧ bool_decide (1 ∈ pending s2) = true
    ∧ image mounted = JStr "/src/assets/fox-logo.png"
    ∧ image s2 = JStr "https://x/a.png"
    ∧ image s2 ≠ image mounted.
Proof.
  eexists _, _. split; [reflexivity|].
  repeat split; try (vm_compute; reflexivity).
  vm_compute. intros H. discriminate H.
Qed.

(** C8, amended. Pressing the button issues one new request and does not
    itself alter the image state (it sets the loading flag); the image keeps
    its value from before the press until some request settles successfully,
    be it this one or an earlier one still in flight. *)
Theorem click_issues_one_request_keeps_image (s : component) :
  is_Some (effect_deps s) →
  ∃ s1, step Click s = Some s1
    ∧ history s1 = history s ++ [ASetLoading true; AFetch API_URL]
    ∧ calls s1 = S (calls s)
    ∧ pending s1 = pending s ∪ {[ calls s ]}
    ∧ image s1 = image s
    ∧ ∀ mid s2, forallb keeps_image mid = true → run mid s1 = Some s2 →
                image s2 = image s.
Proof.
  intros Hm. exists (exec fetchNewImage s).
  split; [apply step_click, Hm|].
  split; [rewrite fetchNewImage_exec; reflexivity|].
  split; [apply fetchNewImage_calls|].
  split; [rewrite fetchNewImage_exec; reflexivity|].
  split; [rewrite fetchNewImage_exec; reflexivity|].
  intros mid s2 Hk Hr.
  destruct (keeps_image_run _ _ _ Hk Hr) as [Hi _].
  rewrite Hi, fetchNewImage_exec. reflexivity.
Qed.

Lemma click_issues_one_request_keeps_image_witness :
  ∃ s1, step Click mounted = Some s1
    ∧ history s1 = history mounted ++ [ASetLoading true; AFetch API_URL]
    ∧ calls s1 = S (calls mounted)
    ∧ pending s1 = pending mounted ∪ {[ calls mounted ]}
    ∧ image s1 = image mounted
    ∧ ∀ mid s2, forallb keeps_image mid = true → run mid s1 = Some s2 →
                image s2 = image mounted.
Proof.
  apply (click_issues_one_request_keeps_image mounted).
  exists []. reflexivity.
Defined.

(** C9. Repeated invocations that each settle successfully with the same
    [image = X] leave the image state at [X]: after each of the rounds
    (press, response) it equals [X], with the loading flag [false]; and once
    the image state is [X], it stays [X] through every run, overlapping
    requests included, in which all responses are successful with
    [image = X]. *)
Theorem repeated_success_same_image
    (X : jsval) (o : outcome) (s : component) (n : nat) :
  successful_with X o →
  is_Some (effect_deps s) →
  (∃ s', run (cycles o (calls s) (S n)) s = Some s'
     ∧ image s' = X ∧ loading s' = false)
  ∧ ∀ tr s1 s2, Forall (settles_with X) tr → image s1 = X →
                run tr s1 = Some s2 → image s2 = X.
Proof.
  intros Hok Hm. split; [exact (cycles_run X o n s Hok Hm)|].
  intros tr s1 s2 Hall. apply (settles_with_run X tr Hall).
Qed.

Lemma repeated_success_same_image_witness :
  (∃ s', run (cycles fox_a (calls mounted) 3) mounted = Some s'
     ∧ image s' = JStr "https://x/a.png" ∧ loading s' = false)
  ∧ ∀ tr s1 s2, Forall (settles_with (JStr "https://x/a.png")) tr →
                image s1 = JStr "https://x/a.png" →
                run tr s1 = Some s2 → image s2 = JStr "https://x/a.png".
Proof.
  apply (repeated_success_same_image (JStr "https://x/a.png") fox_a mounted 2).
  - eexists _, _. repeat split; reflexivity.
  - exists []. reflexivity.
Defined.

(** ** Further properties of the promise chain *)

Lemma step_settle_inv id o s s' :
  step (Settle id o) s = Some s' →
  id ∈ pending s ∧ s' = exec (settle o) (forget id s).
Proof.
  simpl. destruct (bool_decide (id ∈ pending s)) eqn:Hb; [|discriminate].
  intros H. inversion H. split; [|reflexivity].
  apply bool_decide_eq_true_1 in Hb. exact Hb.
Qed.

(** X1. A settled request is all or nothing: either both state cells are
    written ([setImage] then [setLoading(false)], no log), or exactly one
    error is logged and neither cell changes.  There is no partial update. *)
Theorem settle_all_or_nothing (s : component) (id : nat) (o : outcome) :
  id ∈ pending s →
  ∃ s', step (Settle id o) s = Some s'
    ∧ ((∃ v, history s' = history s ++ [ASetImage v; ASetLoading false]
             ∧ image s' = v ∧ loading s' = false ∧ console s' = console s)
       ∨ (∃ e, history s' = history s ++ [AConsoleLog e]
               ∧ image s' = image s ∧ loading s' = loading s
               ∧ console s' = console s ++ [e])).
Proof.
  intros Hin. eexists. split; [apply step_settle, Hin|].
  rewrite settle_exec. unfold console.
  destruct (chain o) as [v|e]; simpl; rewrite console_of_app; simpl.
  - left. exists v. rewrite app_nil_r. auto.
  - right. exists e. auto.
Qed.

Lemma settle_all_or_nothing_witness :
  ∃ s', step (Settle 0 http_500) mounted = Some s'
    ∧ ((∃ v, history s' = history mounted ++ [ASetImage v; ASetLoading false]
             ∧ image s' = v ∧ loading s' = false ∧ console s' = console mounted)
       ∨ (∃ e, history s' = history mounted ++ [AConsoleLog e]
               ∧ image s' = image mounted ∧ loading s' = loading mounted
               ∧ console s' = console mounted ++ [e])).
Proof.
  apply (settle_all_or_nothing mounted 0 http_500).
  apply (bool_decide_unpack _). vm_compute. exact I.
Defined.

(** X2. A success status with the JSON body [null] ends on the error path:
    reading [data.image] throws a TypeError, which is logged; the image and
    the loading flag are left as they were. *)
Theorem null_body_is_logged (s : component) (id : nat) (r : response) :
  ok r = true →
  body r = Json JNull →
  id ∈ pending s →
  ∃ s' e, step (Settle id (Fulfilled r)) s = Some s'
    ∧ err_name e = "TypeError"
    ∧ console s' = console s ++ [e]
    ∧ image s' = image s ∧ loading s' = loading s.
Proof.
  intros Hok Hbody Hin.
  assert (Hch : ∃ e, chain (Fulfilled r) = Throw e ∧ err_name e = "TypeError").
  { unfold chain, on_response, response_json. rewrite Hok, Hbody. simpl. eauto. }
  destruct Hch as (e & Hch & Hname).
  eexists _, e. split; [apply step_settle, Hin|].
  rewrite settle_exec, Hch. unfold console. simpl.
  rewrite console_of_app. auto.
Qed.

Lemma null_body_is_logged_witness :
  ∃ s' e, step (Settle 0 (Fulfilled (Response 200 (Json JNull)))) mounted = Some s'
    ∧ err_name e = "TypeError"
    ∧ console s' = console mounted ++ [e]
    ∧ image s' = image mounted ∧ loading s' = loading mounted.
Proof.
  apply (null_body_is_logged mounted 0 (Response 200 (Json JNull))).
  - reflexivity.
  - reflexivity.
  - apply (bool_decide_unpack _). vm_compute. exact I.
Defined.

(** X3. A success status with a JSON body that is a boolean, a number, a
    string or an array takes the success path: such a value has no [image]
    property, so the image state becomes [undefined], the loading flag
    [false], and nothing is logged. *)
Theorem non_object_body_sets_undefined
    (s : component) (id : nat) (r : response) (v : jsval) :
  ok r = true →
  body r = Json v →
  (∃ b, v = JBool b) ∨ (∃ n, v = JNum n) ∨ (∃ t, v = JStr t) ∨ (∃ l, v = JArr l) →
  id ∈ pending s →
  ∃ s', step (Settle id (Fulfilled r)) s = Some s'
    ∧ image s' = JUndefined ∧ loading s' = false ∧ console s' = console s.
Proof.
  intros Hok Hbody Hv Hin.
  assert (Hch : chain (Fulfilled r) = Normal JUndefined).
  { unfold chain, on_response, response_json. rewrite Hok, Hbody. simpl.
    destruct Hv as [[b ->]|[[n ->]|[[t ->]|[l ->]]]]; reflexivity. }
  eexists. split; [apply step_settle, Hin|].
  rewrite settle_exec, Hch. unfold console. simpl.
  rewrite console_of_app. simpl. rewrite app_nil_r. auto.
Qed.

Lemma non_object_body_sets_undefined_witness :
  ∃ s', step (Settle 0 (Fulfilled (Response 200 (Json (JStr "fox"))))) mounted = Some s'
    ∧ image s' = JUndefined ∧ loading s' = false ∧ console s' = console mounted.
Proof.
  apply (non_object_body_sets_undefined mounted 0
           (Response 200 (Json (JStr "fox"))) (JStr "fox")).
  - reflexivity.
  - reflexivity.
  - right. right. left. exists "fox". reflexivity.
  - apply (bool_decide_unpack _). vm_compute. exact I.
Defined.

(** X4. With a non-success status the body is never read: whatever it is,
    the outcome is the same, namely one log entry
    [Error("Failed to fetch image")] and an unchanged image. *)
Theorem bad_status_ignores_body
    (s : component) (id st : nat) (b1 b2 : body_text) :
  ok (Response st b1) = false →
  id ∈ pending s →
  step (Settle id (Fulfilled (Response st b1))) s
  = step (Settle id (Fulfilled (Response st b2))) s
  ∧ ∃ s', step (Settle id (Fulfilled (Response st b1))) s = Some s'
      ∧ console s' = console s ++ [JsError "Error" "Failed to fetch image"]
      ∧ image s' = image s ∧ loading s' = loading s.
Proof.
  intros Hok Hin.
  assert (Hch : ∀ b, chain (Fulfilled (Response st b))
                     = Throw (JsError "Error" "Failed to fetch image")).
  { intros b. unfold chain, on_response. unfold ok in *. simpl in *.
    rewrite Hok. reflexivity. }
  rewrite !step_settle by exact Hin. rewrite !settle_exec, !Hch.
  split; [reflexivity|].
  eexists. split; [reflexivity|].
  unfold console. simpl. rewrite console_of_app. auto.
Qed.

Lemma bad_status_ignores_body_witness :
  step (Settle 0 (Fulfilled (Response 404 Malformed))) mounted
  = step (Settle 0 (Fulfilled (Response 404
            (Json (JObj {[ "image" := JStr "https://x/a.png" ]}))))) mounted
  ∧ ∃ s', step (Settle 0 (Fulfilled (Response 404 Malformed))) mounted = Some s'
      ∧ console s' = console mounted ++ [JsError "Error" "Failed to fetch image"]
      ∧ image s' = image mounted ∧ loading s' = loading mounted.
Proof.
  apply (bad_status_ignores_body mounted 0 404 Malformed
           (Json (JObj {[ "image" := JStr "https://x/a.png" ]}))).
  - reflexivity.
  - apply (bool_decide_unpack _). vm_compute. exact I.
Defined.

(** ** Further properties of runs *)

Lemma step_image e s s' :
  step e s = Some s' → image s' = default (image s) (delivered e).
Proof.
  destruct e as [| |id o]; intros Hs.
  - destruct (keeps_image_step Render s s' eq_refl Hs) as [H _]. exact H.
  - destruct (keeps_image_step Click s s' eq_refl Hs) as [H _]. exact H.
  - apply step_settle_inv in Hs as [_ ->]. rewrite settle_exec. simpl.
    destruct (chain o); reflexivity.
Qed.

(** X5. The last successful response wins: after any run, the image state is
    the value written by the last response of the run that settled on the
    success path, in whatever order the requests were issued; without such a
    response it is the image from before the run. *)
Theorem last_response_wins (tr : list event) (s s' : component) :
  run tr s = Some s' →
  image s' = default (image s) (last_delivered tr).
Proof.
  revert s. induction tr as [|e tr IH]; intros s Hr.
  - inversion Hr. reflexivity.
  - simpl in Hr. destruct (step e s) as [s1|] eqn:Hs; [|discriminate].
    rewrite (IH _ Hr), (step_image _ _ _ Hs). simpl.
    destruct (last_delivered tr); reflexivity.
Qed.

Lemma last_response_wins_witness :
  ∃ s', run [Click; Settle 1 fox_a; Settle 0 no_image] mounted = Some s'
        ∧ image s' = JUndefined.
Proof.
  eexists. split; [reflexivity|].
  apply (last_response_wins [Click; Settle 1 fox_a; Settle 0 no_image] mounted).
  reflexivity.
Defined.

Lemma step_console e s s' :
  step e s = Some s' →
  console s' = console s ++ match logged e with Some err => [err] | None => [] end.
Proof.
  unfold console. destruct e as [| |id o]; intros Hs.
  - simpl in Hs. inversion Hs; subst s'. rewrite commit_exec.
    destruct (effect_deps s) as [[|j prev]|]; simpl;
      rewrite ?console_of_app; simpl; rewrite app_nil_r; reflexivity.
  - apply step_click_inv in Hs. subst s'. rewrite fetchNewImage_exec. simpl.
    rewrite console_of_app. reflexivity.
  - apply step_settle_inv in Hs as [_ ->]. rewrite settle_exec. simpl.
    destruct (chain o); simpl; rewrite console_of_app; reflexivity.
Qed.

(** X6. The console receives exactly the errors of the failed responses, one
    entry each, in the order in which they settled; renders, presses and
    successful responses log nothing. *)
Theorem console_lists_failures (tr : list event) (s s' : component) :
  run tr s = Some s' →
  console s' = console s ++ omap logged tr.
Proof.
  revert s. induction tr as [|e tr IH]; intros s Hr.
  - inversion Hr. rewrite app_nil_r. reflexivity.
  - simpl in Hr. destruct (step e s) as [s1|] eqn:Hs; [|discriminate].
    rewrite (IH _ Hr), (step_console _ _ _ Hs), <- app_assoc.
    f_equal. cbn [omap list_omap]. destruct (logged e); reflexivity.
Qed.

Lemma console_lists_failures_witness :
  ∃ s', run [Render; Click; Settle 1 http_500; Settle 0 fox_a]
            (init "/src/assets/fox-logo.png") = Some s'
        ∧ console s' = [JsError "Error" "Failed to fetch image"].
Proof.
  eexists. split; [reflexivity|].
  apply (console_lists_failures [Render; Click; Settle 1 http_500; Settle 0 fox_a]
           (init "/src/assets/fox-logo.png")).
  reflexivity.
Defined.

Lemma settled_in_step e s s' :
  settled_in s → step e s = Some s' →
  settled_in s' ∧ loading s' = default (loading s) (loading_write e).
Proof.
  intros Hin Hs. destruct e as [| |id o].
  - simpl in Hs. inversion Hs; subst s'. rewrite commit_exec.
    destruct Hin as [Hd|(Hd & _ & Hl)]; rewrite Hd; simpl.
    + split; [left; reflexivity|reflexivity].
    + split; [left; reflexivity|]. symmetry. exact Hl.
  - pose proof (step_click_inv _ _ Hs) as ->.
    rewrite fetchNewImage_exec. simpl. split; [|reflexivity].
    destruct Hin as [Hd|(Hd & _ & _)]; [left; exact Hd|].
    unfold step in Hs. rewrite Hd in Hs. discriminate.
  - apply step_settle_inv in Hs as [Hp ->]. rewrite settle_exec.
    destruct Hin as [Hd|(_ & He & _)].
    + simpl. destruct (chain o); simpl; (split; [left; exact Hd|reflexivity]).
    + rewrite He in Hp. set_solver.
Qed.

Lemma settled_in_run tr : ∀ s s',
  settled_in s → run tr s = Some s' →
  settled_in s' ∧ loading s' = default (loading s) (last_loading tr).
Proof.
  induction tr as [|e tr IH]; intros s s' Hin Hr.
  - inversion Hr; subst s'. auto.
  - simpl in Hr. destruct (step e s) as [s1|] eqn:Hs; [|discriminate].
    destruct (settled_in_step _ _ _ Hin Hs) as [Hin1 Hl1].
    destruct (IH _ _ Hin1 Hr) as [Hin' Hl'].
    split; [exact Hin'|]. rewrite Hl', Hl1. simpl.
    destruct (last_loading tr); reflexivity.
Qed.

(** X7. In every run of the component from its initial state, the loading
    flag is decided by the last press or successful response of the run: it
    is [false] exactly when a successful response came last.  Renders and
    failed responses never change it, and without any press or successful
    response it is still [true]. *)
Theorem loading_follows_last_write
    (foxLogo : string) (tr : list event) (s : component) :
  run tr (init foxLogo) = Some s →
  loading s = default true (last_loading tr).
Proof.
  intros Hr.
  assert (Hin : settled_in (init foxLogo)) by (right; auto).
  destruct (settled_in_run _ _ _ Hin Hr) as [_ Hl]. exact Hl.
Qed.

Lemma loading_follows_last_write_witness :
  ∃ s, run [Render; Settle 0 fox_a; Click; Settle 1 http_500]
           (init "/src/assets/fox-logo.png") = Some s
       ∧ loading s = true.
Proof.
  eexists. split; [reflexivity|].
  apply (loading_follows_last_write "/src/assets/fox-logo.png"
           [Render; Settle 0 fox_a; Click; Settle 1 http_500]).
  reflexivity.
Defined.

Lemma mounted_step e s s' :
  is_Some (effect_deps s) → step e s = Some s' → is_Some (effect_deps s').
Proof.
  intros Hm Hs. destruct e as [| |id o].
  - simpl in Hs. inversion Hs; subst s'. rewrite commit_exec.
    destruct (effect_deps s) as [[|j prev]|]; simpl; eauto.
  - apply step_click_inv in Hs. subst s'. rewrite fetchNewImage_exec. exact Hm.
  - apply step_settle_inv in Hs as [_ ->]. rewrite settle_exec.
    destruct (chain o); exact Hm.
Qed.

Lemma mounted_run tr : ∀ s s',
  is_Some (effect_deps s) → run tr s = Some s' → is_Some (effect_deps s').
Proof.
  induction tr as [|e tr IH]; intros s s' Hm Hr.
  - inversion Hr; subst s'. exact Hm.
  - simpl in Hr. destruct (step e s) as [s1|] eqn:Hs; [|discriminate].
    exact (IH _ _ (mounted_step _ _ _ Hm Hs) Hr).
Qed.

(** X9. Once the component is on the page the button is never disabled:
    in every state reached after the first render, whatever the loading
    flag and however many requests are in flight, a press is accepted and
    issues one more request. *)
Theorem button_never_disabled
    (foxLogo : string) (tr : list event) (s : component) :
  run (Render :: tr) (init foxLogo) = Some s →
  ∃ s', step Click s = Some s'
    ∧ calls s' = S (calls s) ∧ pending s' = pending s ∪ {[ calls s ]}.
Proof.
  intros Hr. change (run tr (exec FoxImage_commit (init foxLogo)) = Some s) in Hr.
  assert (Hm : is_Some (effect_deps (exec FoxImage_commit (init foxLogo)))).
  { rewrite commit_exec. simpl. eauto. }
  pose proof (mounted_run _ _ _ Hm Hr) as Hm'.
  exists (exec fetchNewImage s). split; [apply step_click, Hm'|].
  split; [apply fetchNewImage_calls|].
  rewrite fetchNewImage_exec. reflexivity.
Qed.

Lemma button_never_disabled_witness :
  ∃ s', step Click (exec fetchNewImage mounted) = Some s'
    ∧ calls s' = S (calls (exec fetchNewImage mounted))
    ∧ pending s' = pending (exec fetchNewImage mounted)
                   ∪ {[ calls (exec fetchNewImage mounted) ]}.
Proof.
  apply (button_never_disabled "/src/assets/fox-logo.png" [Click]).
  reflexivity.
Defined.

Lemma step_history e s s' :
  step e s = Some s' →
  ∃ h, history s' = history s ++ h ∧ Forall fetches_api h.
Proof.
  intros Hs. destruct e as [| |id o].
  - simpl in Hs. inversion Hs; subst s'. rewrite commit_exec.
    destruct (effect_deps s) as [[|j prev]|]; simpl.
    + exists []. rewrite app_nil_r. auto.
    + eexists. split; [reflexivity|]. repeat constructor.
    + eexists. split; [reflexivity|]. repeat constructor.
  - apply step_click_inv in Hs. subst s'. rewrite fetchNewImage_exec. simpl.
    eexists. split; [reflexivity|]. repeat constructor.
  - apply step_settle_inv in Hs as [_ ->]. rewrite settle_exec.
    destruct (chain o); simpl; (eexists; split; [reflexivity|]); repeat constructor.
Qed.

(** X10. The component only ever talks to the fixed endpoint: in every run,
    each [fetch] call in the history is a call on [API_URL]; no URL is
    taken from a response or from the state. *)
Theorem only_api_url_fetched
    (foxLogo : string) (tr : list event) (s : component) :
  run tr (init foxLogo) = Some s →
  Forall fetches_api (history s).
Proof.
  assert (H : ∀ tr s0 s1, Forall fetches_api (history s0) →
                          run tr s0 = Some s1 → Forall fetches_api (history s1)).
  { clear. induction tr as [|e tr IH]; intros s0 s1 H0 Hr.
    - inversion Hr; subst s1. exact H0.
    - simpl in Hr. destruct (step e s0) as [s'|] eqn:Hs; [|discriminate].
      apply (IH s' s1); [|exact Hr].
      destruct (step_history _ _ _ Hs) as (h & -> & Hh).
      apply Forall_app. auto. }
  apply H. constructor.
Qed.

Lemma only_api_url_fetched_witness :
  Forall fetches_api (history (exec fetchNewImage mounted)).
Proof.
  apply (only_api_url_fetched "/src/assets/fox-logo.png" [Render; Click]).
  reflexivity.
Defined.

(** ** The version without the button *)

Lemma v2_commit_exec s :
  exec Version2.FoxImage_commit s =
  match effect_deps s with
  | Some [] =>
      {| image := image s; loading := loading s; effect_deps := Some [];
         pending := pending s; history := history s |}
  | _ =>
      {| image := image s; loading := loading s; effect_deps := Some [];
         pending := pending s ∪ {[ calls s ]};
         history := history s ++ [AEffect; AFetch API_URL] |}
  end.
Proof.
  assert (Hrun : (set_effect_deps [] ;; run_effect Version2.mount_effect) s =
    (tt, {| image := image s; loading := loading s; effect_deps := Some [];
            pending := pending s ∪ {[ calls s ]};
            history := history s ++ [AEffect; AFetch API_URL] |})).
  { unfold Version2.mount_effect, bind, set_effect_deps, run_effect, fetch, ret, calls.
    simpl. rewrite count_fetch_app, <- app_assoc. simpl.
    rewrite Nat.add_0_r. reflexivity. }
  unfold exec, Version2.FoxImage_commit, useEffect.
  destruct (effect_deps s) as [[|j prev]|] eqn:Hd; simpl areHookInputsEqual; cbv iota.
  - reflexivity.
  - rewrite Hrun. reflexivity.
  - rewrite Hrun. reflexivity.
Qed.

Lemma v2_step_click s : Version2.step Click s = None.
Proof.
  unfold Version2.step, Version2.FoxImage.
  destruct (effect_deps s); [|reflexivity].
  destruct (loading s); reflexivity.
Qed.

Lemma v2_step_settle_inv id o s s' :
  Version2.step (Settle id o) s = Some s' →
  id ∈ pending s ∧ s' = exec (settle o) (forget id s).
Proof.
  simpl. destruct (bool_decide (id ∈ pending s)) eqn:Hb; [|discriminate].
  intros H. inversion H. split; [|reflexivity].
  apply bool_decide_eq_true_1 in Hb. exact Hb.
Qed.

Lemma v2_run_counts tr : ∀ s s',
  deps_ok s → Version2.run tr s = Some s' →
  calls s' = calls s + mounts s tr ∧ count_clicks tr = 0.
Proof.
  unfold calls, mounts.
  induction tr as [|e tr IH]; intros s s' Hd Hr.
  - inversion Hr; subst s'. simpl. destruct (effect_deps s); lia.
  - simpl in Hr. destruct (Version2.step e s) as [s1|] eqn:Hs; [|discriminate].
    destruct e as [| |id o].
    + simpl in Hs. inversion Hs; subst s1. clear Hs.
      assert (Hd1 : deps_ok (exec Version2.FoxImage_commit s)).
      { right. rewrite v2_commit_exec. destruct (effect_deps s) as [[|j prev]|]; reflexivity. }
      destruct (IH _ _ Hd1 Hr) as [Hc H0]. rewrite Hc. clear IH Hc Hr.
      rewrite v2_commit_exec.
      destruct Hd as [Hd|Hd]; rewrite Hd; simpl;
        rewrite ?count_fetch_app; simpl; lia.
    + rewrite v2_step_click in Hs. discriminate.
    + apply v2_step_settle_inv in Hs as [_ ->].
      assert (Hd1 : deps_ok (exec (settle o) (forget id s))).
      { unfold deps_ok. rewrite settle_exec. destruct (chain o); exact Hd. }
      destruct (IH _ _ Hd1 Hr) as [Hc H0]. rewrite Hc. clear IH Hc Hr.
      rewrite settle_exec.
      destruct (chain o); simpl; rewrite ?count_fetch_app; simpl;
        destruct (effect_deps s); lia.
Qed.

(** X11. Without the button the component issues one request in its whole
    life, the one of the mount effect: in every run there is one [fetch]
    call if there was a render and none otherwise, and no press is ever
    accepted. *)
Theorem v2_single_request
    (foxLogo : string) (tr : list event) (s : component) :
  Version2.run tr (init foxLogo) = Some s →
  calls s = (if existsb is_render tr then 1 else 0) ∧ count_clicks tr = 0.
Proof.
  intros Hr.
  assert (Hd : deps_ok (init foxLogo)) by (left; reflexivity).
  destruct (v2_run_counts _ _ _ Hd Hr) as [Hc H0].
  split; [|exact H0]. rewrite Hc. reflexivity.
Qed.

Lemma v2_single_request_witness :
  ∃ s, Version2.run [Render; Render; Settle 0 fox_a; Render]
         (init "/src/assets/fox-logo.png") = Some s
       ∧ calls s = 1.
Proof.
  eexists. split; [reflexivity|].
  apply (v2_single_request "/src/assets/fox-logo.png"
           [Render; Render; Settle 0 fox_a; Render]).
  reflexivity.
Defined.

(** Mounted with nothing in flight: in the version without the button, no
    event can change such a state any more. *)
Lemma v2_idle_step e s s' :
  effect_deps s = Some [] → pending s = ∅ → Version2.step e s = Some s' →
  effect_deps s' = Some [] ∧ pending s' = ∅
  ∧ image s' = image s ∧ loading s' = loading s ∧ history s' = history s.
Proof.
  intros Hd Hp Hs. destruct e as [| |id o].
  - simpl in Hs. inversion Hs; subst s'. rewrite v2_commit_exec, Hd. simpl. auto.
  - rewrite v2_step_click in Hs. discriminate.
  - apply v2_step_settle_inv in Hs as [Hin _]. rewrite Hp in Hin. set_solver.
Qed.

Lemma v2_idle_run tr : ∀ s s',
  effect_deps s = Some [] → pending s = ∅ → Version2.run tr s = Some s' →
  image s' = image s ∧ loading s' = loading s ∧ pending s' = ∅
  ∧ history s' = history s.
Proof.
  induction tr as [|e tr IH]; intros s s' Hd Hp Hr.
  - inversion Hr; subst s'. auto.
  - simpl in Hr. destruct (Version2.step e s) as [s1|] eqn:Hs; [|discriminate].
    destruct (v2_idle_step _ _ _ Hd Hp Hs) as (Hd1 & Hp1 & Hi & Hl & Hh).
    destruct (IH _ _ Hd1 Hp1 Hr) as (Hi' & Hl' & Hp' & Hh').
    repeat split; congruence.
Qed.

(** X12. Without the button a failed mount request is final: once the one
    request has ended in an error, whatever happens afterwards the picture
    is the bundled one, the loading flag is [true], nothing is in flight and
    the console holds that one error. *)
Theorem v2_failure_is_final (foxLogo : string) (o : outcome) (e : js_error) :
  chain o = Throw e →
  ∃ s, Version2.run [Render; Settle 0 o] (init foxLogo) = Some s
    ∧ ∀ tr s', Version2.run tr s = Some s' →
        image s' = JStr foxLogo ∧ loading s' = true
        ∧ pending s' = ∅ ∧ console s' = [e].
Proof.
  intros Hch.
  exists (exec (settle o) (forget 0 (exec Version2.FoxImage_commit (init foxLogo)))).
  split; [reflexivity|].
  intros tr s' Hr.
  assert (Hd : effect_deps (exec (settle o)
             (forget 0 (exec Version2.FoxImage_commit (init foxLogo)))) = Some []).
  { rewrite settle_exec, Hch. reflexivity. }
  assert (Hp : pending (exec (settle o)
             (forget 0 (exec Version2.FoxImage_commit (init foxLogo)))) = ∅).
  { rewrite settle_exec, Hch. simpl. set_solver. }
  destruct (v2_idle_run _ _ _ Hd Hp Hr) as (Hi & Hl & Hp' & Hh).
  unfold console. rewrite Hi, Hl, Hh, settle_exec, Hch. simpl. auto.
Qed.

Lemma v2_failure_is_final_witness :
  ∃ s, Version2.run [Render; Settle 0 http_500] (init "/src/assets/fox-logo.png") = Some s
    ∧ ∀ tr s', Version2.run tr s = Some s' →
        image s' = JStr "/src/assets/fox-logo.png" ∧ loading s' = true
        ∧ pending s' = ∅ ∧ console s' = [JsError "Error" "Failed to fetch image"].
Proof.
  apply (v2_failure_is_final "/src/assets/fox-logo.png" http_500
           (JsError "Error" "Failed to fetch image")).
  reflexivity.
Defined.

Lemma v2_settled_in_step e s s' :
  settled_in s → Version2.step e s = Some s' → settled_in s'.
Proof.
  intros Hin Hs. destruct e as [| |id o].
  - simpl in Hs. inversion Hs; subst s'. left. rewrite v2_commit_exec.
    destruct (effect_deps s) as [[|j prev]|]; reflexivity.
  - rewrite v2_step_click in Hs. discriminate.
  - apply v2_step_settle_inv in Hs as [Hp ->]. rewrite settle_exec.
    destruct Hin as [Hd|(_ & He & _)].
    + left. destruct (chain o); exact Hd.
    + rewrite He in Hp. set_solver.
Qed.

Lemma same_view_step e a b a' :
  same_view a b → settled_in a → Version2.step e a = Some a' →
  ∃ b', step e b = Some b' ∧ same_view a' b'.
Proof.
  intros (Hi & Hl & Hp & Hd & Hc & Hk) Hin Hs. destruct e as [| |id o].
  - simpl in Hs. inversion Hs; subst a'. eexists. split; [reflexivity|].
    rewrite v2_commit_exec, commit_exec, <- Hd.
    destruct Hin as [Ha|(Ha & _ & Hla)]; rewrite Ha; unfold same_view, calls, console in *;
      simpl; rewrite ?count_fetch_app, ?console_of_app; simpl.
    + repeat split; auto.
    + rewrite Hp, Hc, Hk, Hi. repeat split; auto.
  - rewrite v2_step_click in Hs. discriminate.
  - apply v2_step_settle_inv in Hs as [Hin' ->].
    eexists. split; [apply step_settle; rewrite <- Hp; exact Hin'|].
    rewrite !settle_exec.
    destruct (chain o); unfold same_view, calls, console in *; simpl;
      rewrite ?count_fetch_app, ?console_of_app; simpl;
      rewrite Hp, Hc, Hk; repeat split; auto.
Qed.

(** X13. Adding the button changed nothing for a user who does not press
    it: every run of the version without the button is a run of the final
    component, and the two end with the same image, loading flag, requests
    in flight, number of [fetch] calls and console.  The extra
    [setLoading(true)] of the final mount effect finds the flag [true]
    already. *)
Theorem final_version_simulates_v2
    (foxLogo : string) (tr : list event) (s2 : component) :
  Version2.run tr (init foxLogo) = Some s2 →
  ∃ s3, run tr (init foxLogo) = Some s3 ∧ same_view s2 s3.
Proof.
  assert (H : ∀ tr a b a', same_view a b → settled_in a →
                Version2.run tr a = Some a' →
                ∃ b', run tr b = Some b' ∧ same_view a' b').
  { clear. induction tr as [|e tr IH]; intros a b a' Hv Hin Hr.
    - inversion Hr; subst a'. exists b. auto.
    - simpl in Hr. destruct (Version2.step e a) as [a1|] eqn:Hs; [|discriminate].
      destruct (same_view_step _ _ _ _ Hv Hin Hs) as (b1 & Hb & Hv1).
      destruct (IH _ b1 _ Hv1 (v2_settled_in_step _ _ _ Hin Hs) Hr) as (b' & Hb' & Hv').
      exists b'. simpl. rewrite Hb. auto. }
  apply H.
  - repeat split.
  - right. auto.
Qed.

Lemma final_version_simulates_v2_witness :
  ∃ s3, run [Render; Settle 0 fox_a; Render] (init "/src/assets/fox-logo.png") = Some s3
    ∧ same_view (exec (settle fox_a) (forget 0
                   (exec Version2.FoxImage_commit (init "/src/assets/fox-logo.png")))) s3.
Proof.
  apply (final_version_simulates_v2 "/src/assets/fox-logo.png"
           [Render; Settle 0 fox_a; Render]).
  reflexivity.
Defined.
